(** * An in-memory cache with a fixed time-to-live

    Shallow embedding of [in-memory-cache.go] (package [cache]) and the
    properties of its operations.

    Conventions of the embedding.
    - [time.Time] and [time.Duration] come from Go's standard library.  An
      instant is the reading of the clock in nanoseconds and a duration is
      a number of nanoseconds, both in [Z]; [t.Add(d)] is [t + d] and
      [t.Before(u)] is [t < u].
    - [time.Now()] is an input: every operation receives the reading(s) of
      the clock it makes.
    - [sync.RWMutex] serialises the operations; an operation is modelled
      as one atomic transition of the cache.
    - A [panic] is an outcome of its own, carrying the state the cache is
      left in (the deferred [Unlock] has run).
    - The pointers [*entry[T]] shared by the map and the slice are modelled
      by the entries themselves: no entry is written after its creation. *)

From Stdlib Require Import ZArith Lia.
From stdpp Require Import gmap strings list fin_maps sorting.

Open Scope Z_scope.

(** ** The data model *)

(** Every Go type has a zero value: what [var v T] holds. *)
Class GoType (T : Type) := zero_value : T.

#[global] Instance string_GoType : GoType string := "".
#[global] Instance Z_GoType : GoType Z := 0.

Abbreviation Time := Z.
Abbreviation Duration := Z.

(** [type entry[T any] struct { Key; Value; Expiration }] *)
Record entry (T : Type) := mkEntry {
  Key : string;
  Value : T;
  Expiration : Time
}.
Arguments mkEntry {T} _ _ _.
Arguments Key {T} _.
Arguments Value {T} _.
Arguments Expiration {T} _.

(** [func (e entry[T]) IsExpired() bool], at the clock reading [now]. *)
Definition IsExpired {T} (e : entry T) (now : Time) : bool :=
  Expiration e <? now.

(** A [*time.Ticker]: its period, and whether [Stop] was called. *)
Record Ticker := mkTicker {
  period : Duration;
  stopped : bool
}.

(** [type InMemoryCache[T any] struct].  The channel [done] carries no
    value: all there is to know is whether it has been closed. *)
Record InMemoryCache (T : Type) := mkCache {
  timeToLive : Duration;
  cleaningTicker : Ticker;
  done : bool;
  isClosed : bool;
  hashmap : gmap string (entry T);
  queue : list (entry T)
}.
Arguments mkCache {T} _ _ _ _ _ _.
Arguments timeToLive {T} _.
Arguments cleaningTicker {T} _.
Arguments done {T} _.
Arguments isClosed {T} _.
Arguments hashmap {T} _.
Arguments queue {T} _.

(** Field assignments. *)
Definition set_queue {T} (q : list (entry T)) (c : InMemoryCache T) :=
  mkCache (timeToLive c) (cleaningTicker c) (done c) (isClosed c) (hashmap c) q.
Definition set_hashmap {T} (m : gmap string (entry T)) (c : InMemoryCache T) :=
  mkCache (timeToLive c) (cleaningTicker c) (done c) (isClosed c) m (queue c).
Definition set_done {T} (b : bool) (c : InMemoryCache T) :=
  mkCache (timeToLive c) (cleaningTicker c) b (isClosed c) (hashmap c) (queue c).
Definition set_cleaningTicker {T} (t : Ticker) (c : InMemoryCache T) :=
  mkCache (timeToLive c) t (done c) (isClosed c) (hashmap c) (queue c).
Definition set_isClosed {T} (b : bool) (c : InMemoryCache T) :=
  mkCache (timeToLive c) (cleaningTicker c) (done c) b (hashmap c) (queue c).

(** ** Methods as state transformers that may panic *)

Inductive outcome (S A : Type) :=
| Returned (a : A) (s : S)
| Panicked (msg : string) (s : S).
Arguments Returned {S A} _ _.
Arguments Panicked {S A} _ _.

Definition state_of {S A} (o : outcome S A) : S :=
  match o with
  | Returned _ s => s
  | Panicked _ s => s
  end.

Definition M (S A : Type) := S -> outcome S A.

Definition ret {S A} (a : A) : M S A := fun s => Returned a s.
Definition bind {S A B} (m : M S A) (k : A -> M S B) : M S B :=
  fun s => match m s with
           | Returned a s' => k a s'
           | Panicked msg s' => Panicked msg s'
           end.
Definition panic {S A} (msg : string) : M S A := fun s => Panicked msg s.
Definition read {S} : M S S := fun s => Returned s s.
Definition modify {S} (f : S -> S) : M S unit := fun s => Returned tt (f s).

Notation "'let*' x := m 'in' k" := (bind m (fun x => k))
  (at level 10, x name, m at level 100, k at level 200).
Notation "m ;; k" := (bind m (fun _ => k))
  (at level 100, k at level 200, right associativity).

(** [errors.New(msg)]; [None] is the [nil] error. *)
Definition error := string.

Section Cache.
Context {T : Type}.

Abbreviation cache := (InMemoryCache T).

(** [NewInMemoryCache]: the ticker runs, the channel is open, the map is
    empty and the slice is [nil].  The goroutine [autoClean] it starts is
    the source of the [CallSweep] steps below.  ([time.NewTicker] refuses
    an interval that is not positive; the interval is recorded as given,
    and nothing below depends on it.) *)
Definition NewInMemoryCache (ttl autoCleanInterval : Duration) : cache :=
  mkCache ttl (mkTicker autoCleanInterval false) false false ∅ [].

Definition mustBeNotClosed : M cache unit :=
  let* c := read in
  if isClosed c then panic "cache is closed" else ret tt.

(** The loop of [Set]: drop the first entry of the queue whose key is
    [key], then [break]. *)
Fixpoint remove_key (key : string) (q : list (entry T)) : list (entry T) :=
  match q with
  | [] => []
  | e :: q' =>
      if decide (Key e = key) then q' else e :: remove_key key q'
  end.

Definition Set_ (key : string) (v : T) (now : Time) : M cache unit :=
  mustBeNotClosed ;;
  let* c := read in
  (if decide (is_Some (hashmap c !! key))
   then modify (fun c => set_queue (remove_key key (queue c)) c)
   else ret tt) ;;
  let* c := read in
  let e := mkEntry key v (now + timeToLive c) in
  modify (fun c => set_hashmap (<[key := e]> (hashmap c)) c) ;;
  modify (fun c => set_queue (queue c ++ [e]) c).

Definition Get `{!GoType T} (key : string) (now : Time)
  : M cache (T * option error) :=
  mustBeNotClosed ;;
  let v := zero_value in
  let* c := read in
  match hashmap c !! key with
  | None => ret (v, Some "cache miss")
  | Some e =>
      if IsExpired e now then ret (v, Some "cache miss")
      else ret (Value e, None)
  end.

Definition Close : M cache unit :=
  mustBeNotClosed ;;
  modify (set_done true) ;;
  modify (fun c => set_cleaningTicker
                     (mkTicker (period (cleaningTicker c)) true) c) ;;
  modify (set_isClosed true).

(** The loop of [deleteExpiredEntries]; the [i]-th evaluation of its
    condition reads the clock as [clock i]. *)
Fixpoint trim_expired (clock : nat -> Time) (i : nat) (q : list (entry T))
  : list (entry T) :=
  match q with
  | [] => []
  | e :: q' =>
      if IsExpired e (clock i) then trim_expired clock (S i) q' else q
  end.

Definition deleteExpiredEntries (clock : nat -> Time) : M cache unit :=
  let* c := read in
  if (length (queue c) =? 0)%nat then ret tt
  else modify (fun c => set_queue (trim_expired clock 0 (queue c)) c).

(** The state in which [Set] returns when the cache is open. *)
Definition Set_result (key : string) (v : T) (now : Time) (c : cache)
  : cache :=
  let e := mkEntry key v (now + timeToLive c) in
  mkCache (timeToLive c) (cleaningTicker c) (done c) (isClosed c)
    (<[key := e]> (hashmap c))
    ((if decide (is_Some (hashmap c !! key))
      then remove_key key (queue c) else queue c) ++ [e]).

(** ** Calls and reachable states

    A client calls [Set], [Get] and [Close]; the goroutine [autoClean]
    calls [deleteExpiredEntries] when the ticker fires.  Any interleaving
    of the four is a history of the cache; a call that panics leaves the
    state it found. *)
Inductive call :=
| CallSet (key : string) (v : T) (now : Time)
| CallGet (key : string) (now : Time)
| CallClose
| CallSweep (clock : nat -> Time).

Definition exec `{!GoType T} (c : cache) (op : call) : cache :=
  match op with
  | CallSet key v now => state_of (Set_ key v now c)
  | CallGet key now => state_of (Get key now c)
  | CallClose => state_of (Close c)
  | CallSweep clock => state_of (deleteExpiredEntries clock c)
  end.

Inductive reachable `{!GoType T} : cache -> Prop :=
| reachable_new ttl interval : reachable (NewInMemoryCache ttl interval)
| reachable_exec c op : reachable c -> reachable (exec c op).

(** A run of [Set] calls, each with its own clock reading. *)
Definition run_sets (c : cache) (sets : list (string * T * Time)) : cache :=
  foldl (fun c '(key, v, now) => state_of (Set_ key v now c)) c sets.

(** ** Invariants *)

(** Every entry of the queue is the entry the index holds for its key,
    and no key occurs twice in the queue. *)
Definition queue_indexed (c : cache) : Prop :=
  NoDup (Key <$> queue c) ∧
  ∀ e, e ∈ queue c → hashmap c !! Key e = Some e.

(** Every entry of the index is filed under its own key and stands in
    the queue. *)
Definition index_queued (c : cache) : Prop :=
  ∀ k e, hashmap c !! k = Some e → Key e = k ∧ e ∈ queue c.

(** Every entry of the index is filed under its own key. *)
Definition index_keyed (c : cache) : Prop :=
  ∀ k e, hashmap c !! k = Some e → Key e = k.

(** The index and the queue hold the same entries, one per key. *)
Definition bijection (c : cache) : Prop :=
  queue_indexed c ∧ index_queued c.

Definition expires_no_later (a b : entry T) : Prop :=
  Expiration a ≤ Expiration b.

(** The queue is in non-decreasing order of expiration. *)
Definition queue_sorted (q : list (entry T)) : Prop :=
  StronglySorted expires_no_later q.

(** How many entries of the queue carry the key [k]. *)
Definition count_key (k : string) (q : list (entry T)) : nat :=
  length (filter (fun e => Key e = k) q).

(** The clock readings of a run of calls never go back. *)
Definition clock_monotone (sets : list (string * T * Time)) : Prop :=
  StronglySorted Z.le (snd <$> sets).

(** ** Histories *)

(** The successive readings of a clock never go back. *)
Definition clock_never_goes_back (clock : nat -> Time) : Prop :=
  ∀ i j, (i ≤ j)%nat → clock i ≤ clock j.

(** The state after a history of calls. *)
Definition history `{!GoType T} (c : cache) (ops : list call) : cache :=
  foldl exec c ops.

(** The clock readings of the [Set] calls of a history, in order. *)
Definition set_times (ops : list call) : list Time :=
  omap (fun op => match op with
                  | CallSet _ _ now => Some now
                  | _ => None
                  end) ops.

(** The value and the clock reading of the last [Set] of [key] so far. *)
Definition record_set (key : string) (acc : option (T * Time)) (op : call)
  : option (T * Time) :=
  match op with
  | CallSet k v now => if decide (k = key) then Some (v, now) else acc
  | _ => acc
  end.

Definition last_set (key : string) (ops : list call) : option (T * Time) :=
  foldl (record_set key) None ops.

Definition is_close (op : call) : bool :=
  match op with
  | CallClose => true
  | _ => false
  end.

Definition is_sweep (op : call) : bool :=
  match op with
  | CallSweep _ => true
  | _ => false
  end.

(** What [Get] answers once the value and the clock reading of the last
    [Set] of the key are known: the value while [now] is not past the
    expiration, the miss otherwise. *)
Definition answer `{!GoType T} (ttl : Duration) (now : Time)
    (last : option (T * Time)) : T * option error :=
  match last with
  | Some (v, set_at) =>
      if bool_decide (now ≤ set_at + ttl) then (v, None)
      else (zero_value, Some "cache miss")
  | None => (zero_value, Some "cache miss")
  end.

End Cache.

(** What a call hands to its caller: the value returned, or the message
    of the panic. *)
Definition value_of {S A} (o : outcome S A) : A + string :=
  match o with
  | Returned a _ => inl a
  | Panicked msg _ => inr msg
  end.

(** ** A cache of strings

    The run of the test "deleted expired entry": a cache with a
    time-to-live of one tick, one [Set] at instant 0, and a sweep once
    the entry has expired. *)

Definition example_new : InMemoryCache string := NewInMemoryCache 1 1.

Definition example_set : InMemoryCache string :=
  exec example_new (CallSet "key" "value"%string 0).

Definition example_swept : InMemoryCache string :=
  exec example_set (CallSweep (fun _ => 10)).

Definition example_closed : InMemoryCache string :=
  exec example_new CallClose.

Definition example_sets : list (string * string * Time) :=
  [("a", "1", 0); ("b", "2", 1); ("a", "3", 1); ("c", "4", 5)]%string.

(** A history on the cache of strings: two keys, one of them set twice,
    a lookup and two sweeps in between. *)
Definition example_ops : list (@call string) :=
  [CallSet "a" "1"%string 0; CallSet "b" "2"%string 2;
   CallSweep (fun _ => 2); CallGet "a" 3; CallSet "a" "3"%string 4;
   CallSweep (fun i => 4 + Z.of_nat i)].

Definition example_history : InMemoryCache string :=
  history example_new example_ops.

(** The same history stopped before its last sweep, and the clock of
    that sweep. *)
Definition example_before_sweep : InMemoryCache string :=
  history example_new (take 5 example_ops).

Definition example_clock : nat -> Time := fun i => 4 + Z.of_nat i.

(** A history without a sweep, closed before its last call. *)
Definition example_quiet_ops : list (@call string) :=
  [CallSet "a" "1"%string 0; CallGet "a" 1; CallSet "b" "2"%string 1;
   CallSet "a" "3"%string 2; CallClose; CallSet "c" "4"%string 3].

Section Properties.
Context {T : Type}.

Abbreviation cache := (InMemoryCache T).

(** ** The methods, case by case *)

Lemma mustBeNotClosed_open (c : cache) :
  isClosed c = false → mustBeNotClosed c = Returned tt c.
Proof. intros H. unfold mustBeNotClosed, bind, read. by rewrite H. Qed.

Lemma mustBeNotClosed_closed (c : cache) :
  isClosed c = true → mustBeNotClosed c = Panicked "cache is closed" c.
Proof. intros H. unfold mustBeNotClosed, bind, read. by rewrite H. Qed.

Lemma Set_open key v now (c : cache) :
  isClosed c = false →
  Set_ key v now c = Returned tt (Set_result key v now c).
Proof.
  intros H. unfold Set_, bind at 1. rewrite mustBeNotClosed_open by done.
  unfold Set_result, bind, read, modify, ret.
  destruct c as [ttl tk dn cl m q]; simpl in *.
  destruct (decide (is_Some (m !! key))); reflexivity.
Qed.

Lemma Set_closed key v now (c : cache) :
  isClosed c = true →
  Set_ key v now c = Panicked "cache is closed" c.
Proof.
  intros H. unfold Set_, bind at 1. by rewrite mustBeNotClosed_closed.
Qed.

Lemma Close_open (c : cache) :
  isClosed c = false →
  Close c = Returned tt
    (mkCache (timeToLive c) (mkTicker (period (cleaningTicker c)) true)
       true true (hashmap c) (queue c)).
Proof.
  intros H. unfold Close, bind at 1. by rewrite mustBeNotClosed_open.
Qed.

Lemma Close_closed (c : cache) :
  isClosed c = true → Close c = Panicked "cache is closed" c.
Proof.
  intros H. unfold Close, bind at 1. by rewrite mustBeNotClosed_closed.
Qed.

Lemma deleteExpiredEntries_returns clock (c : cache) :
  deleteExpiredEntries clock c =
  Returned tt (set_queue (trim_expired clock 0 (queue c)) c).
Proof.
  unfold deleteExpiredEntries, bind, read, modify, ret.
  destruct c as [ttl tk dn cl m q]; simpl.
  destruct q; reflexivity.
Qed.

Section WithZero.
Context `{!GoType T}.

Lemma Get_closed key now (c : cache) :
  isClosed c = true → Get key now c = Panicked "cache is closed" c.
Proof.
  intros H. unfold Get, bind at 1. by rewrite mustBeNotClosed_closed.
Qed.

Lemma Get_open key now (c : cache) :
  isClosed c = false →
  Get key now c =
  Returned (match hashmap c !! key with
            | None => (zero_value, Some "cache miss")
            | Some e => if IsExpired e now
                        then (zero_value, Some "cache miss")
                        else (Value e, None)
            end) c.
Proof.
  intros H. unfold Get, bind at 1. rewrite mustBeNotClosed_open by done.
  unfold bind, read, ret.
  destruct (hashmap c !! key) as [e|]; [|done].
  by destruct (IsExpired e now).
Qed.

Lemma Get_state key now (c : cache) : state_of (Get key now c) = c.
Proof.
  destruct (isClosed c) eqn:H.
  - by rewrite Get_closed.
  - by rewrite Get_open.
Qed.
End WithZero.

(** ** The two loops *)

Lemma remove_key_absent key (q : list (entry T)) :
  key ∉ Key <$> q → remove_key key q = q.
Proof.
  induction q as [|e q IH]; simpl; [done|].
  rewrite not_elem_of_cons. intros [Hne Hq].
  destruct (decide (Key e = key)); [congruence|].
  by rewrite IH.
Qed.

(** The loop removes the first entry with the key, and that one only. *)
Lemma remove_key_present key (q : list (entry T)) :
  key ∈ Key <$> q →
  ∃ l1 old l2,
    q = l1 ++ old :: l2 ∧ Key old = key ∧ (key ∉ Key <$> l1) ∧
    remove_key key q = l1 ++ l2.
Proof.
  induction q as [|e q IH]; simpl.
  - by intros ?%elem_of_nil.
  - intros Hin. destruct (decide (Key e = key)) as [Heq|Hne].
    + exists [], e, q. split_and!; [done|done|apply not_elem_of_nil|done].
    + apply elem_of_cons in Hin as [?|Hin]; [congruence|].
      destruct (IH Hin) as (l1 & old & l2 & -> & Hk & Hl1 & Hr).
      exists (e :: l1), old, l2. split_and!; [done|done| |by rewrite Hr].
      simpl. rewrite not_elem_of_cons. split; [congruence|done].
Qed.

Lemma remove_key_cases key (q : list (entry T)) :
  ((key ∉ Key <$> q) ∧ remove_key key q = q) ∨
  (∃ l1 old l2,
     q = l1 ++ old :: l2 ∧ Key old = key ∧ (key ∉ Key <$> l1) ∧
     remove_key key q = l1 ++ l2).
Proof.
  destruct (decide (key ∈ Key <$> q)) as [Hin|Hout].
  - right. by apply remove_key_present.
  - left. split; [done|by apply remove_key_absent].
Qed.

Lemma remove_key_elem_of key (q : list (entry T)) e :
  e ∈ remove_key key q → e ∈ q.
Proof.
  destruct (remove_key_cases key q)
    as [[_ ->]|(l1 & old & l2 & -> & _ & _ & ->)]; [done|].
  rewrite !elem_of_app, elem_of_cons. tauto.
Qed.

Lemma remove_key_other key (q : list (entry T)) e :
  e ∈ q → Key e ≠ key → e ∈ remove_key key q.
Proof.
  destruct (remove_key_cases key q)
    as [[_ ->]|(l1 & old & l2 & -> & Hk & _ & ->)]; [done|].
  rewrite !elem_of_app, elem_of_cons. intros [?|[->|?]] ?; tauto.
Qed.

Lemma remove_key_NoDup key (q : list (entry T)) :
  NoDup (Key <$> q) → NoDup (Key <$> remove_key key q).
Proof.
  destruct (remove_key_cases key q)
    as [[_ ->]|(l1 & old & l2 & -> & _ & _ & ->)]; [done|].
  rewrite !fmap_app, fmap_cons, !NoDup_app, NoDup_cons.
  intros (? & Hd & ? & ?). split_and!; [done| |done].
  intros x Hx Hx'. apply (Hd x Hx). by right.
Qed.

(** With one entry per key, nothing of the key is left. *)
Lemma remove_key_gone key (q : list (entry T)) :
  NoDup (Key <$> q) → key ∉ Key <$> remove_key key q.
Proof.
  destruct (remove_key_cases key q)
    as [[? ->]|(l1 & old & l2 & -> & Hk & Hl1 & ->)]; [done|].
  rewrite !fmap_app, fmap_cons, NoDup_app, NoDup_cons, Hk.
  intros (_ & _ & Hl2 & _). rewrite not_elem_of_app. tauto.
Qed.

Lemma remove_key_sorted key (q : list (entry T)) :
  queue_sorted q → queue_sorted (remove_key key q).
Proof.
  unfold queue_sorted.
  destruct (remove_key_cases key q)
    as [[_ ->]|(l1 & old & l2 & -> & _ & _ & ->)]; [done|].
  rewrite !StronglySorted_app, StronglySorted_cons.
  intros (Hc & ? & _ & ?). split_and!; [|done|done].
  intros x1 x2 H1 H2. apply Hc; [done|by right].
Qed.

(** The sweep keeps a tail of the queue. *)
Lemma trim_expired_suffix clock i (q : list (entry T)) :
  trim_expired clock i q `suffix_of` q.
Proof.
  revert i. induction q as [|e q IH]; intros i; simpl; [done|].
  destruct (IsExpired e (clock i)); [|done].
  by apply suffix_cons_r.
Qed.

(** The sweep stops at an entry that has not expired, or at the end. *)
Lemma trim_expired_head clock i (q : list (entry T)) :
  trim_expired clock i q = [] ∨
  ∃ j e q', trim_expired clock i q = e :: q' ∧
            IsExpired e (clock j) = false.
Proof.
  revert i. induction q as [|e q IH]; intros i; simpl; [by left|].
  destruct (IsExpired e (clock i)) eqn:He; [apply IH|].
  right. by exists i, e, q.
Qed.

(** A queue whose entries have all expired is swept to the end. *)
Lemma trim_expired_all clock i (q : list (entry T)) :
  (∀ j e, e ∈ q → IsExpired e (clock j) = true) →
  trim_expired clock i q = [].
Proof.
  revert i. induction q as [|e q IH]; intros i Hall; simpl; [done|].
  rewrite (Hall i e) by left.
  apply IH. intros j e' He'. apply Hall. by right.
Qed.

(** ** What each method preserves *)

Lemma Set_state_cases key v now (c : cache) :
  (isClosed c = true ∧ state_of (Set_ key v now c) = c) ∨
  (isClosed c = false ∧
   state_of (Set_ key v now c) = Set_result key v now c).
Proof.
  destruct (isClosed c) eqn:H.
  - left. by rewrite Set_closed.
  - right. by rewrite Set_open.
Qed.

Lemma Close_state_queue (c : cache) : queue (state_of (Close c)) = queue c.
Proof.
  destruct (isClosed c) eqn:H;
    [by rewrite Close_closed|by rewrite Close_open].
Qed.

Lemma Close_state_hashmap (c : cache) : hashmap (state_of (Close c)) = hashmap c.
Proof.
  destruct (isClosed c) eqn:H;
    [by rewrite Close_closed|by rewrite Close_open].
Qed.

(** The sweep never writes to the index. *)
Lemma deleteExpiredEntries_hashmap clock (c : cache) :
  hashmap (state_of (deleteExpiredEntries clock c)) = hashmap c.
Proof. by rewrite deleteExpiredEntries_returns. Qed.

Lemma deleteExpiredEntries_queue clock (c : cache) :
  queue (state_of (deleteExpiredEntries clock c)) =
  trim_expired clock 0 (queue c).
Proof. by rewrite deleteExpiredEntries_returns. Qed.

(** On a cache whose entries have all expired the sweep empties the
    queue, and that is all it does. *)
Lemma deleteExpiredEntries_all_expired clock (c : cache) :
  (∀ j e, e ∈ queue c → IsExpired e (clock j) = true) →
  deleteExpiredEntries clock c = Returned tt (set_queue [] c).
Proof.
  intros Hall. rewrite deleteExpiredEntries_returns.
  by rewrite trim_expired_all.
Qed.

Lemma New_bijection ttl interval :
  bijection (NewInMemoryCache ttl interval : cache).
Proof.
  split; [split|]; simpl.
  - constructor.
  - by intros e ?%elem_of_nil.
  - intros k e. simpl. by rewrite lookup_empty.
Qed.

(** The queue of [Set_result] without its new last entry. *)
Lemma Set_result_queue key v now (c : cache) :
  queue (Set_result key v now c) =
  (if decide (is_Some (hashmap c !! key))
   then remove_key key (queue c) else queue c)
  ++ [mkEntry key v (now + timeToLive c)].
Proof. reflexivity. Qed.

Lemma Set_result_queue_indexed key v now (c : cache) :
  queue_indexed c → queue_indexed (Set_result key v now c).
Proof.
  intros [Hnd Hidx].
  set (base := if decide (is_Some (hashmap c !! key))
               then remove_key key (queue c) else queue c).
  assert (Hsub : ∀ e, e ∈ base → e ∈ queue c).
  { intros e. unfold base. case_decide; [apply remove_key_elem_of|done]. }
  assert (Hnd' : NoDup (Key <$> base)).
  { unfold base. case_decide; [by apply remove_key_NoDup|done]. }
  assert (Hfresh : key ∉ Key <$> base).
  { unfold base. case_decide as Hk; [by apply remove_key_gone|].
    intros (e & Hke & He)%list_elem_of_fmap.
    apply Hk. rewrite Hke. rewrite (Hidx e He). by eexists. }
  split; rewrite Set_result_queue; fold base; simpl.
  - rewrite fmap_app, NoDup_app. split_and!; [done| |apply NoDup_singleton].
    intros x Hx ->%list_elem_of_singleton. done.
  - intros e [He| ->%list_elem_of_singleton]%elem_of_app.
    + rewrite lookup_insert_ne; [by apply Hidx, Hsub|].
      intros Heq. apply Hfresh, list_elem_of_fmap. by exists e.
    + simpl. by rewrite lookup_insert_eq.
Qed.

Lemma Set_result_index_queued key v now (c : cache) :
  index_queued c → index_queued (Set_result key v now c).
Proof.
  intros Hq k e. rewrite Set_result_queue. simpl.
  destruct (decide (key = k)) as [->|Hne].
  - rewrite lookup_insert_eq. intros [= <-]. split; [done|].
    apply elem_of_app. right. by left.
  - rewrite lookup_insert_ne by done. intros [Hk He]%Hq.
    split; [done|]. apply elem_of_app. left.
    case_decide; [|done]. apply remove_key_other; congruence.
Qed.

Lemma Set_queue_indexed key v now (c : cache) :
  queue_indexed c → queue_indexed (state_of (Set_ key v now c)).
Proof.
  destruct (Set_state_cases key v now c) as [[_ ->]|[_ ->]];
    [done|apply Set_result_queue_indexed].
Qed.

Lemma Set_bijection key v now (c : cache) :
  bijection c → bijection (state_of (Set_ key v now c)).
Proof.
  destruct (Set_state_cases key v now c) as [[_ ->]|[_ ->]]; [done|].
  intros [? ?].
  split; [by apply Set_result_queue_indexed
         |by apply Set_result_index_queued].
Qed.

Lemma Close_bijection (c : cache) : bijection c → bijection (state_of (Close c)).
Proof.
  unfold bijection, queue_indexed, index_queued.
  by rewrite Close_state_queue, Close_state_hashmap.
Qed.

Lemma Close_queue_indexed (c : cache) :
  queue_indexed c → queue_indexed (state_of (Close c)).
Proof.
  unfold queue_indexed. by rewrite Close_state_queue, Close_state_hashmap.
Qed.

(** The sweep leaves every remaining entry of the queue indexed. *)
Lemma deleteExpiredEntries_queue_indexed clock (c : cache) :
  queue_indexed c →
  queue_indexed (state_of (deleteExpiredEntries clock c)).
Proof.
  intros [Hnd Hidx]. unfold queue_indexed.
  rewrite deleteExpiredEntries_queue, deleteExpiredEntries_hashmap.
  destruct (trim_expired_suffix clock 0 (queue c)) as [l Hl].
  split.
  - rewrite Hl, fmap_app, NoDup_app in Hnd. tauto.
  - intros e He. apply Hidx. rewrite Hl, elem_of_app. by right.
Qed.

Lemma deleteExpiredEntries_sorted clock (c : cache) :
  queue_sorted (queue c) →
  queue_sorted (queue (state_of (deleteExpiredEntries clock c))).
Proof.
  rewrite deleteExpiredEntries_queue. unfold queue_sorted.
  destruct (trim_expired_suffix clock 0 (queue c)) as [l Hl].
  rewrite Hl at 1. apply StronglySorted_app_1_r.
Qed.

Lemma reachable_queue_indexed `{!GoType T} (c : cache) :
  reachable c → queue_indexed c.
Proof.
  induction 1 as [ttl interval|c op _ IH].
  - apply New_bijection.
  - destruct op; simpl.
    + by apply Set_queue_indexed.
    + by rewrite Get_state.
    + by apply Close_queue_indexed.
    + by apply deleteExpiredEntries_queue_indexed.
Qed.

Lemma exec_isClosed `{!GoType T} (c : cache) op :
  isClosed c = true → isClosed (exec c op) = true.
Proof.
  intros H. destruct op; simpl.
  - by rewrite Set_closed.
  - by rewrite Get_state.
  - by rewrite Close_closed.
  - by rewrite deleteExpiredEntries_returns.
Qed.

Lemma history_isClosed `{!GoType T} ops (c : cache) :
  isClosed c = true → isClosed (foldl exec c ops) = true.
Proof.
  revert c. induction ops as [|op ops IH]; intros c H; simpl; [done|].
  by apply IH, exec_isClosed.
Qed.

(** ** Lookup *)

Section Lookup.
Context `{!GoType T}.

(** C7. [Get] never changes the cache: whether it returns or panics,
    the state it leaves (index, queue, closed flag and all) is the
    state it found, also when the entry it looks at has expired. *)
Theorem Get_does_not_mutate key now (c : cache) :
  state_of (Get key now c) = c ∧
  ((∃ r, Get key now c = Returned r c) ∨
   Get key now c = Panicked "cache is closed" c).
Proof.
  split; [apply Get_state|].
  destruct (isClosed c) eqn:H.
  - right. by apply Get_closed.
  - left. eexists. by apply Get_open.
Qed.

(** C8. On a cache just built by [NewInMemoryCache], [Get] reports a
    miss for every key. *)
Theorem Get_fresh_miss ttl interval key now :
  Get key now (NewInMemoryCache ttl interval : cache) =
  Returned (zero_value, Some "cache miss")
           (NewInMemoryCache ttl interval).
Proof. by rewrite Get_open. Qed.

(** C3, amended.  On a cache that is not closed, [Get] returns the
    miss failure exactly when the key is absent from the index or its
    entry's expiration is strictly before the current time; otherwise
    it returns the stored value and no error. *)
Theorem Get_miss_iff key now (c : cache) :
  isClosed c = false →
  ∃ v err,
    Get key now c = Returned (v, err) c ∧
    (err = Some "cache miss" ↔
       hashmap c !! key = None ∨
       ∃ e, hashmap c !! key = Some e ∧ Expiration e < now) ∧
    (err ≠ Some "cache miss" →
       err = None ∧ ∃ e, hashmap c !! key = Some e ∧ v = Value e).
Proof.
  intros H. rewrite Get_open by done.
  destruct (hashmap c !! key) as [e|] eqn:Hk.
  - unfold IsExpired. destruct (Z.ltb_spec (Expiration e) now).
    + eexists _, _. split_and!; [done| |done].
      split; [|done]. intros _. right. by exists e.
    + eexists _, _. split_and!; [done| |].
      * split; [done|]. intros [?|(e' & [= <-] & ?)]; [done|lia].
      * intros _. split; [done|]. by exists e.
  - eexists _, _. split_and!; [done| |done].
    split; [|done]. intros _. by left.
Qed.

(** C10. Whenever [Get] returns a failure, the value it returns with it
    is the zero value of [T]: the failure is the cache miss, the key is
    absent or its entry has expired, and the stored value is not
    handed out. *)
Theorem Get_miss_zero_value key now (c c' : cache) v err :
  Get key now c = Returned (v, Some err) c' →
  v = zero_value ∧ err = "cache miss" ∧ c' = c ∧
  (hashmap c !! key = None ∨
   ∃ e, hashmap c !! key = Some e ∧ IsExpired e now = true).
Proof.
  destruct (isClosed c) eqn:H.
  { by rewrite Get_closed. }
  rewrite Get_open by done.
  destruct (hashmap c !! key) as [e|] eqn:Hk.
  - destruct (IsExpired e now) eqn:He; [|done].
    intros [= <- <- <-]. split_and!; [done..|]. right. by exists e.
  - intros [= <- <- <-]. split_and!; [done..|]. by left.
Qed.

(** C9. On an open cache with a positive time-to-live, [Set] of a key
    followed by [Get] of that key returns the value just stored with
    no error, at the same clock reading and at any later one that is
    not past the time-to-live. *)
Theorem Get_after_Set key v now (c : cache) :
  isClosed c = false →
  0 < timeToLive c →
  ∃ c',
    Set_ key v now c = Returned tt c' ∧
    Get key now c' = Returned (v, None) c' ∧
    ∀ now', now ≤ now' → now' - now ≤ timeToLive c →
            Get key now' c' = Returned (v, None) c'.
Proof.
  intros H Httl. exists (Set_result key v now c).
  split; [by apply Set_open|].
  assert (Hhit : ∀ now', now' - now ≤ timeToLive c →
            Get key now' (Set_result key v now c) =
            Returned (v, None) (Set_result key v now c)).
  { intros now' Hle. rewrite Get_open by done. simpl.
    rewrite lookup_insert_eq. unfold IsExpired. simpl.
    destruct (Z.ltb_spec (now + timeToLive c) now'); [lia|done]. }
  split; [apply Hhit; lia|]. intros now' _. apply Hhit.
Qed.

(** C5. Once [Close] has returned, the cache is closed for good:
    whatever calls follow, every further [Set], [Get] and [Close]
    panics with "cache is closed" and leaves the state it found. *)
Theorem closed_cache_panics (c : cache) :
  isClosed c = false →
  ∃ c',
    Close c = Returned tt c' ∧ isClosed c' = true ∧
    ∀ ops : list call,
      let c'' := foldl exec c' ops in
      (∀ key v now,
         Set_ key v now c'' = Panicked "cache is closed" c'') ∧
      (∀ key now, Get key now c'' = Panicked "cache is closed" c'') ∧
      Close c'' = Panicked "cache is closed" c''.
Proof.
  intros H. eexists. split; [by apply Close_open|]. split; [done|].
  intros ops c''.
  assert (Hc : isClosed c'' = true) by by apply history_isClosed.
  split_and!.
  - intros. by apply Set_closed.
  - intros. by apply Get_closed.
  - by apply Close_closed.
Qed.
End Lookup.

(** ** Updates *)

Lemma Set_base_fresh key (c : cache) :
  queue_indexed c →
  key ∉ Key <$> (if decide (is_Some (hashmap c !! key))
                 then remove_key key (queue c) else queue c).
Proof.
  intros [Hnd Hidx]. case_decide as Hk; [by apply remove_key_gone|].
  intros (e & Hke & He)%list_elem_of_fmap.
  apply Hk. rewrite Hke, (Hidx e He). by eexists.
Qed.

Lemma count_key_absent k (q : list (entry T)) :
  k ∉ Key <$> q → count_key k q = 0%nat.
Proof.
  unfold count_key. induction q as [|e q IH]; simpl; [done|].
  rewrite not_elem_of_cons. intros [Hne Hq].
  rewrite filter_cons_False by congruence. by apply IH.
Qed.

Lemma count_key_snoc k (q : list (entry T)) e :
  Key e = k → count_key k (q ++ [e]) = S (count_key k q).
Proof.
  intros He. unfold count_key.
  rewrite filter_app, filter_cons_True, length_app by done.
  simpl. lia.
Qed.

Lemma Set_result_count_key key v now (c : cache) :
  queue_indexed c →
  count_key key (queue (Set_result key v now c)) = 1%nat.
Proof.
  intros Hc. rewrite Set_result_queue, count_key_snoc by done.
  by rewrite count_key_absent by by apply Set_base_fresh.
Qed.

Lemma Set_result_index_keyed key v now (c : cache) :
  index_keyed c → index_keyed (Set_result key v now c).
Proof.
  intros Hc k e. simpl. destruct (decide (key = k)) as [->|Hne].
  - rewrite lookup_insert_eq. by intros [= <-].
  - rewrite lookup_insert_ne by done. apply Hc.
Qed.

Lemma reachable_index_keyed `{!GoType T} (c : cache) :
  reachable c → index_keyed c.
Proof.
  induction 1 as [ttl interval|c op _ IH].
  - intros k e. simpl. by rewrite lookup_empty.
  - destruct op; simpl.
    + destruct (Set_state_cases key v now c) as [[_ ->]|[_ ->]];
        [done|by apply Set_result_index_keyed].
    + by rewrite Get_state.
    + unfold index_keyed. by rewrite Close_state_hashmap.
    + unfold index_keyed. by rewrite deleteExpiredEntries_hashmap.
Qed.

(** C6. From any reachable open cache, [Set] of a key twice and then
    [Get] of that key never yields the first value: [Get] returns the
    second value with no error as long as the time-to-live of the second
    [Set] has not run out, and the miss otherwise.  After each of the
    two [Set]s the queue holds exactly one entry with the key, and the
    only entry of the index with the key is the new one, filed under
    the key. *)
Theorem Set_twice_overwrites `{!GoType T} key v1 v2 now1 now2 (c : cache) :
  reachable c →
  isClosed c = false →
  ∃ c1 c2,
    Set_ key v1 now1 c = Returned tt c1 ∧
    Set_ key v2 now2 c1 = Returned tt c2 ∧
    count_key key (queue c1) = 1%nat ∧
    count_key key (queue c2) = 1%nat ∧
    (∀ k e, hashmap c2 !! k = Some e → Key e = key →
            k = key ∧ e = mkEntry key v2 (now2 + timeToLive c)) ∧
    (∀ now3, now3 ≤ now2 + timeToLive c →
             Get key now3 c2 = Returned (v2, None) c2) ∧
    (∀ now3, now2 + timeToLive c < now3 →
             Get key now3 c2 =
             Returned (zero_value, Some "cache miss") c2).
Proof.
  intros Hr Hopen.
  pose proof (reachable_queue_indexed c Hr) as Hqi.
  pose proof (reachable_index_keyed c Hr) as Hik.
  set (c1 := Set_result key v1 now1 c).
  set (c2 := Set_result key v2 now2 c1).
  assert (Hqi1 : queue_indexed c1) by by apply Set_result_queue_indexed.
  assert (Hik2 : index_keyed c2) by by do 2 apply Set_result_index_keyed.
  assert (Hk2 : hashmap c2 !! key =
                Some (mkEntry key v2 (now2 + timeToLive c))).
  { simpl. by rewrite lookup_insert_eq. }
  exists c1, c2. split_and!.
  - by apply Set_open.
  - by apply Set_open.
  - by apply Set_result_count_key.
  - by apply Set_result_count_key.
  - intros k e Hk He. pose proof (Hik2 k e Hk) as Hkk.
    assert (k = key) as -> by congruence.
    split; [done|congruence].
  - intros now3 Hle. rewrite Get_open, Hk2 by done.
    unfold IsExpired. simpl.
    destruct (Z.ltb_spec (now2 + timeToLive c) now3); [lia|done].
  - intros now3 Hlt. rewrite Get_open, Hk2 by done.
    unfold IsExpired. simpl.
    destruct (Z.ltb_spec (now2 + timeToLive c) now3); [done|lia].
Qed.

(** ** The order of the queue *)

Lemma run_sets_snoc (c : cache) sets key v now :
  run_sets c (sets ++ [(key, v, now)]) =
  state_of (Set_ key v now (run_sets c sets)).
Proof. unfold run_sets. by rewrite foldl_app. Qed.

Lemma run_sets_isClosed sets (c : cache) :
  isClosed (run_sets c sets) = isClosed c.
Proof.
  revert c. induction sets as [|[[key v] now] sets IH]; intros c; [done|].
  simpl. rewrite IH.
  by destruct (Set_state_cases key v now c) as [[_ ->]|[_ ->]].
Qed.

Lemma run_sets_timeToLive sets (c : cache) :
  timeToLive (run_sets c sets) = timeToLive c.
Proof.
  revert c. induction sets as [|[[key v] now] sets IH]; intros c; [done|].
  simpl. rewrite IH.
  by destruct (Set_state_cases key v now c) as [[_ ->]|[_ ->]].
Qed.

Lemma run_sets_bijection sets (c : cache) :
  bijection c → bijection (run_sets c sets).
Proof.
  revert c. induction sets as [|[[key v] now] sets IH]; intros c; [done|].
  intros Hc. simpl. by apply IH, Set_bijection.
Qed.

(** Appending an entry that expires no earlier than the others keeps
    the order. *)
Lemma Set_result_sorted key v now (c : cache) :
  queue_sorted (queue c) →
  (∀ e, e ∈ queue c → Expiration e ≤ now + timeToLive c) →
  queue_sorted (queue (Set_result key v now c)).
Proof.
  intros Hs Hb. rewrite Set_result_queue. unfold queue_sorted.
  apply StronglySorted_app_2.
  - intros e1 e2 H1 ->%list_elem_of_singleton.
    unfold expires_no_later. simpl. apply Hb.
    case_decide; [by eapply remove_key_elem_of|done].
  - case_decide; [by apply remove_key_sorted|done].
  - repeat constructor.
Qed.

Lemma Set_result_elem_of key v now (c : cache) e :
  e ∈ queue (Set_result key v now c) →
  e ∈ queue c ∨ e = mkEntry key v (now + timeToLive c).
Proof.
  rewrite Set_result_queue.
  intros [He| ->%list_elem_of_singleton]%elem_of_app; [left|by right].
  case_decide; [by eapply remove_key_elem_of|done].
Qed.

Lemma run_sets_sorted sets (c : cache) :
  clock_monotone sets →
  queue_sorted (queue c) →
  (∀ e s, e ∈ queue c → s ∈ sets → Expiration e ≤ s.2 + timeToLive c) →
  queue_sorted (queue (run_sets c sets)).
Proof.
  unfold clock_monotone. revert c.
  induction sets as [|[[key v] now] sets IH]; intros c Hm Hs Hb; [done|].
  simpl in *. apply StronglySorted_cons in Hm as [Hnow Hm].
  rewrite Forall_fmap, Forall_forall in Hnow.
  destruct (Set_state_cases key v now c) as [[_ ->]|[_ ->]].
  - apply IH; [done|done|]. intros e s He Hin. apply Hb; [done|by right].
  - apply IH; [done| |].
    + apply Set_result_sorted; [done|].
      intros e He. apply (Hb e (key, v, now)); [done|by left].
    + intros e s [He| ->]%Set_result_elem_of Hin; simpl.
      * apply Hb; [done|by right].
      * specialize (Hnow s Hin). unfold compose in Hnow. lia.
Qed.

Lemma clock_monotone_take n (sets : list (string * T * Time)) :
  clock_monotone sets → clock_monotone (take n sets).
Proof.
  unfold clock_monotone. rewrite <-(take_drop n sets) at 1.
  rewrite fmap_app. apply StronglySorted_app_1_l.
Qed.

(** C4. Start from a fresh cache and run any sequence of [Set] calls,
    keys repeated or not, whose clock readings never go back.  After
    every call the queue is in non-decreasing order of expiration.
    Each call returns; on a key that is new it appends the new entry
    (expiration = now + ttl) to the queue, and on a key that is in the
    index it takes the old entry out of its place in the queue and
    appends the new one at the tail. *)
Theorem Set_keeps_queue_sorted ttl interval
    (sets : list (string * T * Time)) :
  clock_monotone sets →
  ∀ n,
    let c : cache :=
      run_sets (NewInMemoryCache ttl interval) (take n sets) in
    queue_sorted (queue c) ∧
    ∀ key v now, sets !! n = Some (key, v, now) →
      let e := mkEntry key v (now + ttl) in
      ∃ c',
        Set_ key v now c = Returned tt c' ∧
        c' = run_sets (NewInMemoryCache ttl interval) (take (S n) sets) ∧
        (hashmap c !! key = None → queue c' = queue c ++ [e]) ∧
        (∀ old, hashmap c !! key = Some old →
           ∃ l1 l2, queue c = l1 ++ old :: l2 ∧
                    queue c' = (l1 ++ l2) ++ [e]).
Proof.
  intros Hm n c. split.
  { apply run_sets_sorted.
    - by apply clock_monotone_take.
    - constructor.
    - by intros e s ?%elem_of_nil. }
  intros key v now Hn e.
  assert (Hopen : isClosed c = false) by apply run_sets_isClosed.
  assert (Httl : timeToLive c = ttl) by apply run_sets_timeToLive.
  assert (Hbij : bijection c) by apply run_sets_bijection, New_bijection.
  exists (Set_result key v now c).
  split; [by apply Set_open|]. split.
  { rewrite (take_S_r _ _ _ Hn), run_sets_snoc. fold c.
    by rewrite Set_open. }
  rewrite Set_result_queue, Httl. fold e. split.
  - intros Hnone. case_decide as Hk; [|done].
    rewrite Hnone in Hk. by destruct Hk.
  - intros old Hold. destruct Hbij as [[Hnd Hidx] Hiq].
    destruct (Hiq key old Hold) as [Hkey Hin].
    rewrite decide_True by by eexists.
    destruct (remove_key_present key (queue c))
      as (l1 & old' & l2 & Hq & Hk' & _ & Hr).
    { apply list_elem_of_fmap. by exists old. }
    assert (old' = old) as ->.
    { assert (Hin' : old' ∈ queue c).
      { rewrite Hq, elem_of_app. right. by left. }
      apply Hidx in Hin'. rewrite Hk', Hold in Hin'. congruence. }
    exists l1, l2. by rewrite Hr.
Qed.

End Properties.

(** ** The sweep and the index *)

(** C1, on the run of the test "deleted expired entry".  Every entry of
    the cache has expired when the sweep runs; the sweep empties the
    queue, and the index still holds the entry under its key. *)
Theorem sweep_leaves_index_entry :
  (∀ e, e ∈ queue example_set → IsExpired e 10 = true) ∧
  queue example_swept = [] ∧
  hashmap example_swept !! "key"%string =
    Some (mkEntry "key" "value"%string 1) ∧
  hashmap example_swept ≠ ∅.
Proof.
  split_and!.
  - intros e ->%list_elem_of_singleton. reflexivity.
  - reflexivity.
  - reflexivity.
  - intros Hempty.
    assert (H : hashmap example_swept !! "key"%string = None)
      by by rewrite Hempty.
    discriminate H.
Qed.

(** C2, on the same run.  The index and the queue are in bijection after
    the [Set]; the state after the sweep is reachable, and there the key
    of the index has no entry in the queue. *)
Theorem sweep_breaks_bijection :
  bijection example_set ∧
  reachable example_swept ∧
  ¬ bijection example_swept.
Proof.
  split_and!.
  - apply (Set_bijection "key" "value"%string 0 example_new), New_bijection.
  - do 2 apply reachable_exec. apply reachable_new.
  - intros [_ Hiq].
    destruct (Hiq "key"%string (mkEntry "key" "value"%string 1)) as [_ Hin];
      [reflexivity|].
    by apply elem_of_nil in Hin.
Qed.

(** C3 as stated fails twice.  An entry whose expiration is the current
    time is at or before it, and [Get] returns its value with no error.
    On a closed cache a key absent from the index gives a panic, which is
    neither a miss nor a value. *)
Lemma Get_at_expiration_hits :
  (hashmap example_set !! "key"%string =
     Some (mkEntry "key" "value"%string 1) ∧
   Expiration (mkEntry "key" "value"%string 1) ≤ 1 ∧
   Get "key" 1 example_set = Returned ("value"%string, None) example_set) ∧
  (hashmap example_closed !! "key"%string = None ∧
   Get "key" 1 example_closed =
     Panicked "cache is closed" example_closed).
Proof. repeat split; vm_compute; congruence. Qed.

(** ** The theorems at work on the cache of strings *)

Lemma Get_miss_iff_witness :
  isClosed example_set = false ∧
  ∃ v err,
    Get "key" 2 example_set = Returned (v, err) example_set ∧
    (err = Some "cache miss"%string ↔
       hashmap example_set !! "key"%string = None ∨
       ∃ e, hashmap example_set !! "key"%string = Some e ∧
            Expiration e < 2) ∧
    (err ≠ Some "cache miss"%string →
       err = None ∧
       ∃ e, hashmap example_set !! "key"%string = Some e ∧ v = Value e).
Proof.
  split; [reflexivity|]. apply Get_miss_iff. reflexivity.
Defined.

Lemma Get_miss_zero_value_witness :
  Get "key" 2 example_set =
    Returned (""%string, Some "cache miss"%string) example_set ∧
  (""%string = zero_value ∧
   "cache miss"%string = "cache miss"%string ∧
   example_set = example_set ∧
   (hashmap example_set !! "key"%string = None ∨
    ∃ e, hashmap example_set !! "key"%string = Some e ∧
         IsExpired e 2 = true)).
Proof.
  split; [reflexivity|].
  apply (Get_miss_zero_value "key" 2 example_set example_set).
  reflexivity.
Defined.

Lemma Get_after_Set_witness :
  isClosed example_new = false ∧
  0 < timeToLive example_new ∧
  ∃ c',
    Set_ "key" "value"%string 0 example_new = Returned tt c' ∧
    Get "key" 0 c' = Returned ("value"%string, None) c' ∧
    ∀ now', 0 ≤ now' → now' - 0 ≤ timeToLive example_new →
            Get "key" now' c' = Returned ("value"%string, None) c'.
Proof.
  split; [reflexivity|]. split; [reflexivity|].
  apply Get_after_Set; reflexivity.
Defined.

Lemma closed_cache_panics_witness :
  isClosed example_new = false ∧
  ∃ c',
    Close example_new = Returned tt c' ∧ isClosed c' = true ∧
    ∀ ops : list call,
      let c'' := foldl exec c' ops in
      (∀ key (v : string) now,
         Set_ key v now c'' = Panicked "cache is closed" c'') ∧
      (∀ key now, Get key now c'' = Panicked "cache is closed" c'') ∧
      Close c'' = Panicked "cache is closed" c''.
Proof.
  split; [reflexivity|]. apply closed_cache_panics. reflexivity.
Defined.

Lemma Set_twice_overwrites_witness :
  reachable example_set ∧
  isClosed example_set = false ∧
  ∃ c1 c2,
    Set_ "key" "v1"%string 3 example_set = Returned tt c1 ∧
    Set_ "key" "v2"%string 4 c1 = Returned tt c2 ∧
    count_key "key" (queue c1) = 1%nat ∧
    count_key "key" (queue c2) = 1%nat ∧
    (∀ k e, hashmap c2 !! k = Some e → Key e = "key"%string →
            k = "key"%string ∧
            e = mkEntry "key" "v2"%string (4 + timeToLive example_set)) ∧
    (∀ now3, now3 ≤ 4 + timeToLive example_set →
             Get "key" now3 c2 = Returned ("v2"%string, None) c2) ∧
    (∀ now3, 4 + timeToLive example_set < now3 →
             Get "key" now3 c2 =
             Returned (zero_value, Some "cache miss"%string) c2).
Proof.
  assert (Hr : reachable example_set).
  { unfold example_set. apply reachable_exec. apply reachable_new. }
  split; [exact Hr|]. split; [reflexivity|].
  apply Set_twice_overwrites; [exact Hr|reflexivity].
Defined.

Lemma Set_keeps_queue_sorted_witness :
  clock_monotone example_sets ∧
  ∀ n,
    let c : InMemoryCache string :=
      run_sets (NewInMemoryCache 1 1) (take n example_sets) in
    queue_sorted (queue c) ∧
    ∀ key v now, example_sets !! n = Some (key, v, now) →
      let e := mkEntry key v (now + 1) in
      ∃ c',
        Set_ key v now c = Returned tt c' ∧
        c' = run_sets (NewInMemoryCache 1 1) (take (S n) example_sets) ∧
        (hashmap c !! key = None → queue c' = queue c ++ [e]) ∧
        (∀ old, hashmap c !! key = Some old →
           ∃ l1 l2, queue c = l1 ++ old :: l2 ∧
                    queue c' = (l1 ++ l2) ++ [e]).
Proof.
  assert (Hm : clock_monotone example_sets).
  { unfold clock_monotone, example_sets. simpl.
    repeat (constructor; [|repeat constructor; lia]). constructor. }
  split; [exact Hm|].
  apply Set_keeps_queue_sorted. exact Hm.
Defined.

(** * Further properties of the methods *)

Section Sweep.
Context {T : Type}.

Abbreviation cache := (InMemoryCache T).

(** ** What the sweep does to the queue *)

Lemma trim_expired_split clock i (q : list (entry T)) :
  ∃ removed,
    q = removed ++ trim_expired clock i q ∧
    (∀ j e, removed !! j = Some e → IsExpired e (clock (i + j)%nat) = true) ∧
    (trim_expired clock i q = [] ∨
     ∃ e q', trim_expired clock i q = e :: q' ∧
             IsExpired e (clock (i + length removed)%nat) = false).
Proof.
  revert i. induction q as [|e q IH]; intros i; simpl.
  - exists []. split_and!; [done| |by left]. by intros j e ?.
  - destruct (IsExpired e (clock i)) eqn:He.
    + destruct (IH (S i)) as (removed & Hq & Hrem & Hhead).
      exists (e :: removed). split_and!.
      * simpl. by rewrite <-Hq.
      * intros [|j] e'; simpl.
        -- intros [= <-]. by rewrite Nat.add_0_r.
        -- intros Hj. replace (i + S j)%nat with (S i + j)%nat by lia.
           by apply Hrem.
      * simpl. replace (i + S (length removed))%nat
          with (S i + length removed)%nat by lia. done.
    + exists []. split_and!; [done|by intros j e' ?|].
      right. exists e, q. simpl. by rewrite Nat.add_0_r.
Qed.

Lemma deleteExpiredEntries_split clock (c : cache) :
  ∃ removed,
    queue c = removed ++ queue (state_of (deleteExpiredEntries clock c)) ∧
    (∀ j e, removed !! j = Some e → IsExpired e (clock j) = true) ∧
    (queue (state_of (deleteExpiredEntries clock c)) = [] ∨
     ∃ e q', queue (state_of (deleteExpiredEntries clock c)) = e :: q' ∧
             IsExpired e (clock (length removed)) = false).
Proof.
  rewrite deleteExpiredEntries_queue.
  destruct (trim_expired_split clock 0 (queue c))
    as (removed & Hq & Hrem & Hhead).
  exists removed. split_and!; [done| |done].
  intros j e Hj. by apply (Hrem j e).
Qed.

Lemma deleteExpiredEntries_live_head clock (c : cache) :
  (∀ e, head (queue c) = Some e → IsExpired e (clock 0%nat) = false) →
  deleteExpiredEntries clock c = Returned tt c.
Proof.
  intros Hhead. rewrite deleteExpiredEntries_returns.
  destruct c as [ttl tk dn cl m q]; simpl in *. unfold set_queue; simpl.
  destruct q as [|e q]; simpl; [done|].
  by rewrite (Hhead e).
Qed.

(** X1. The sweep always returns, closed cache or not, and writes to the
    queue only: the time-to-live, the ticker, the channel, the closed
    flag and the index are as before, and the new queue is a tail of the
    old one. *)
Theorem sweep_only_shortens_queue clock (c : cache) :
  ∃ c',
    deleteExpiredEntries clock c = Returned tt c' ∧
    timeToLive c' = timeToLive c ∧
    cleaningTicker c' = cleaningTicker c ∧
    done c' = done c ∧
    isClosed c' = isClosed c ∧
    hashmap c' = hashmap c ∧
    queue c' `suffix_of` queue c.
Proof.
  eexists. split; [apply deleteExpiredEntries_returns|].
  split_and!; try reflexivity. simpl. apply trim_expired_suffix.
Qed.

(** X2. The sweep takes entries off the head of the queue one by one,
    each of them expired at the clock reading it was tested with, and
    stops at the first entry that has not expired at the reading it is
    tested with, or at the end of the queue. *)
Theorem sweep_removes_expired_head clock (c : cache) :
  ∃ removed,
    queue c = removed ++ queue (state_of (deleteExpiredEntries clock c)) ∧
    (∀ j e, removed !! j = Some e → IsExpired e (clock j) = true) ∧
    (queue (state_of (deleteExpiredEntries clock c)) = [] ∨
     ∃ e q', queue (state_of (deleteExpiredEntries clock c)) = e :: q' ∧
             IsExpired e (clock (length removed)) = false).
Proof. apply deleteExpiredEntries_split. Qed.

Lemma filter_keeps_all {A} (P : A → Prop) `{!∀ x, Decision (P x)} l :
  Forall P l → filter P l = l.
Proof.
  induction 1 as [|x l Hx _ IH]; [done|].
  by rewrite filter_cons_True, IH.
Qed.

Lemma filter_drops_all {A} (P : A → Prop) `{!∀ x, Decision (P x)} l :
  Forall (λ x, ¬ P x) l → filter P l = [].
Proof.
  induction 1 as [|x l Hx _ IH]; [done|].
  by rewrite filter_cons_False.
Qed.

Lemma IsExpired_later (e : entry T) now now' :
  now ≤ now' → IsExpired e now = true → IsExpired e now' = true.
Proof. unfold IsExpired. rewrite !Z.ltb_lt. lia. Qed.

Lemma IsExpired_sorted (e e' : entry T) now :
  expires_no_later e e' →
  IsExpired e now = false → IsExpired e' now = false.
Proof. unfold IsExpired, expires_no_later. rewrite !Z.ltb_ge. lia. Qed.

(** X3. On a queue in non-decreasing order of expiration, with a clock
    that never goes back, the sweep keeps exactly the entries that have
    not expired at its last clock reading, in their order: stopping at
    the first live entry loses nothing. *)
Theorem sweep_keeps_live_entries clock (c : cache) :
  queue_sorted (queue c) →
  clock_never_goes_back clock →
  let c' := state_of (deleteExpiredEntries clock c) in
  let last := clock (length (queue c) - length (queue c'))%nat in
  queue c' = filter (λ e, IsExpired e last = false) (queue c).
Proof.
  intros Hs Hclock c' last.
  destruct (deleteExpiredEntries_split clock c)
    as (removed & Hq & Hrem & Hhead).
  fold c' in Hq, Hhead.
  assert (Hlast : last = clock (length removed)).
  { unfold last. rewrite Hq at 1. rewrite length_app. f_equal. lia. }
  rewrite Hlast. rewrite Hq at 1. rewrite filter_app.
  rewrite filter_drops_all, filter_keeps_all; [done| |].
  - destruct Hhead as [->|(e & q' & Hc' & He)]; [constructor|].
    rewrite Hq in Hs. apply StronglySorted_app_1_r in Hs.
    rewrite Hc' in Hs |- *. apply StronglySorted_cons in Hs as [Hle _].
    constructor; [done|].
    eapply Forall_impl; [exact Hle|].
    intros e' He'. by eapply IsExpired_sorted.
  - apply Forall_lookup. intros j e Hj.
    rewrite (IsExpired_later e (clock j) (clock (length removed))).
    + done.
    + apply Hclock. apply lookup_lt_Some in Hj. lia.
    + by apply Hrem.
Qed.

(** X4. A sweep that finds the queue empty, or finds at its head an entry
    that has not expired, changes nothing at all. *)
Theorem sweep_without_expired_head clock (c : cache) :
  (∀ e, head (queue c) = Some e → IsExpired e (clock 0%nat) = false) →
  deleteExpiredEntries clock c = Returned tt c.
Proof. apply deleteExpiredEntries_live_head. Qed.

(** X5. Two sweeps in a row at the same clock reading do what one does:
    the second finds nothing to remove. *)
Theorem sweep_twice_same_instant now (c : cache) :
  let c' := state_of (deleteExpiredEntries (fun _ => now) c) in
  deleteExpiredEntries (fun _ => now) c' = Returned tt c'.
Proof.
  intros c'. subst c'. apply deleteExpiredEntries_live_head.
  intros e He.
  destruct (deleteExpiredEntries_split (fun _ => now) c)
    as (removed & _ & _ & [Hnil|(e' & q' & Hc' & He')]).
  - by rewrite Hnil in He.
  - rewrite Hc' in He. simpl in He. congruence.
Qed.

End Sweep.

Section Histories.
Context {T : Type} `{!GoType T}.

Abbreviation cache := (InMemoryCache T).

(** ** Lookups between other calls *)

Lemma value_of_Get_hashmap key now (c c' : cache) :
  isClosed c' = isClosed c →
  hashmap c' !! key = hashmap c !! key →
  value_of (Get key now c') = value_of (Get key now c).
Proof.
  intros Hcl Hm. destruct (isClosed c) eqn:H.
  - by rewrite !Get_closed.
  - rewrite !Get_open by congruence. simpl. by rewrite Hm.
Qed.

(** X6. A sweep never changes what [Get] hands back: at any key and any
    clock reading, [Get] after the sweep gives what [Get] before it
    would have given (the value, the miss, or the panic). *)
Theorem sweep_keeps_Get_answer clock key now (c : cache) :
  value_of (Get key now (state_of (deleteExpiredEntries clock c))) =
  value_of (Get key now c).
Proof.
  apply value_of_Get_hashmap; by rewrite deleteExpiredEntries_returns.
Qed.

(** X7. A miss stays a miss as time goes on: if [Get] returns a failure
    for a key at some clock reading, it returns the miss with the zero
    value at every later reading of the same state. *)
Theorem Get_miss_persists key now now' (c c' : cache) v err :
  now ≤ now' →
  Get key now c = Returned (v, Some err) c' →
  Get key now' c = Returned (zero_value, Some "cache miss") c.
Proof.
  intros Hle. destruct (isClosed c) eqn:H.
  { by rewrite Get_closed. }
  rewrite !Get_open by done.
  destruct (hashmap c !! key) as [e|]; [|done].
  destruct (IsExpired e now) eqn:He; [|done].
  by rewrite (IsExpired_later e now now').
Qed.

(** X8. [Set] of one key leaves the answer of [Get] for every other key
    as it was. *)
Theorem Set_other_key key key' v now now' (c : cache) :
  key ≠ key' →
  value_of (Get key now (state_of (Set_ key' v now' c))) =
  value_of (Get key now c).
Proof.
  intros Hne.
  destruct (Set_state_cases key' v now' c) as [[_ ->]|[_ ->]]; [done|].
  apply value_of_Get_hashmap; [done|]. simpl.
  by rewrite lookup_insert_ne.
Qed.

(** ** The index over a history *)

Lemma reachable_history ops (c : cache) :
  reachable c → reachable (history c ops).
Proof.
  unfold history. revert c.
  induction ops as [|op ops IH]; intros c Hc; simpl; [done|].
  by apply IH, reachable_exec.
Qed.

Lemma exec_hashmap_other (c : cache) op key :
  (∀ v now, op ≠ CallSet key v now) →
  hashmap (exec c op) !! key = hashmap c !! key.
Proof.
  intros Hop. destruct op as [k v now|k now| |clock]; simpl.
  - destruct (Set_state_cases k v now c) as [[_ ->]|[_ ->]]; [done|].
    simpl. rewrite lookup_insert_ne; [done|]. intros ->. by eapply Hop.
  - by rewrite Get_state.
  - by rewrite Close_state_hashmap.
  - by rewrite deleteExpiredEntries_hashmap.
Qed.

Lemma exec_hashmap_is_Some (c : cache) op key :
  is_Some (hashmap c !! key) → is_Some (hashmap (exec c op) !! key).
Proof.
  intros Hk. destruct op as [k v now|k now| |clock]; simpl.
  - destruct (Set_state_cases k v now c) as [[_ ->]|[_ ->]]; [done|].
    simpl. destruct (decide (k = key)) as [->|Hne].
    + rewrite lookup_insert_eq. by eexists.
    + by rewrite lookup_insert_ne.
  - by rewrite Get_state.
  - by rewrite Close_state_hashmap.
  - by rewrite deleteExpiredEntries_hashmap.
Qed.

(** X9. No call ever takes a key out of the index: a key that is in the
    index stays there through every history of [Set], [Get], [Close] and
    sweeps. *)
Theorem index_never_forgets ops (c : cache) key :
  is_Some (hashmap c !! key) →
  is_Some (hashmap (history c ops) !! key).
Proof.
  unfold history. revert c.
  induction ops as [|op ops IH]; intros c Hk; simpl; [done|].
  by apply IH, exec_hashmap_is_Some.
Qed.

Lemma exec_isClosed_open (c : cache) op :
  isClosed c = false → is_close op = false → isClosed (exec c op) = false.
Proof.
  intros H Hop. destruct op as [k v now|k now| |clock]; simpl; [| |done|].
  - by rewrite Set_open.
  - by rewrite Get_state.
  - by rewrite deleteExpiredEntries_returns.
Qed.

Lemma exec_timeToLive (c : cache) op :
  timeToLive (exec c op) = timeToLive c.
Proof.
  destruct op as [k v now|k now| |clock]; simpl.
  - by destruct (Set_state_cases k v now c) as [[_ ->]|[_ ->]].
  - by rewrite Get_state.
  - destruct (isClosed c) eqn:H;
      [by rewrite Close_closed|by rewrite Close_open].
  - by rewrite deleteExpiredEntries_returns.
Qed.

(** Without [Close], the index holds for a key the entry of its last
    [Set]. *)
Lemma history_last_set key ops (c : cache) acc :
  isClosed c = false →
  Forall (λ op, is_close op = false) ops →
  hashmap c !! key =
    (λ '(v, now), mkEntry key v (now + timeToLive c)) <$> acc →
  isClosed (history c ops) = false ∧
  hashmap (history c ops) !! key =
    (λ '(v, now), mkEntry key v (now + timeToLive c)) <$>
      foldl (record_set key) acc ops.
Proof.
  unfold history. revert c acc.
  induction ops as [|op ops IH]; intros c acc Hopen Hops Hacc; simpl;
    [done|].
  apply Forall_cons in Hops as [Hop Hops].
  rewrite <-(exec_timeToLive c op).
  apply IH; [by apply exec_isClosed_open|done|].
  rewrite exec_timeToLive.
  destruct op as [k v now|k now| |clock]; try done; simpl record_set.
  - simpl. rewrite Set_open by done. simpl.
    destruct (decide (k = key)) as [->|Hne].
    + by rewrite lookup_insert_eq.
    + by rewrite lookup_insert_ne.
  - by rewrite exec_hashmap_other.
  - by rewrite exec_hashmap_other.
Qed.

(** X10. The last [Set] wins.  After any history without [Close] on a
    fresh cache, [Get] of a key returns the value of the last [Set] of
    that key with no error while the clock reading is not past that
    [Set]'s reading plus the time-to-live; it returns the miss with the
    zero value past it, and when the key was never set.  Sweeps, lookups
    and [Set]s of other keys in between change nothing to it. *)
Theorem Get_returns_last_Set ttl interval ops key now :
  Forall (λ op, is_close op = false) ops →
  Get key now (history (NewInMemoryCache ttl interval : cache) ops) =
  Returned (answer ttl now (last_set key ops))
           (history (NewInMemoryCache ttl interval) ops).
Proof.
  intros Hops.
  destruct (history_last_set key ops
              (NewInMemoryCache ttl interval) None) as [Hopen Hk];
    [done|done|done|].
  rewrite Get_open, Hk by done. f_equal. fold (last_set key ops).
  destruct (last_set key ops) as [[v set_at]|]; simpl; [|done].
  unfold IsExpired. simpl.
  destruct (Z.ltb_spec (set_at + ttl) now).
  - by rewrite bool_decide_eq_false_2 by lia.
  - by rewrite bool_decide_eq_true_2 by lia.
Qed.

(** X11. Expiration is by time alone.  After [Set] of a key on an open
    cache and any number of sweeps, [Get] of the key returns the value
    while the clock reading is at most the reading of the [Set] plus the
    time-to-live, and the miss with the zero value after that, whether a
    sweep has removed the entry from the queue or not. *)
Theorem Get_after_Set_and_sweeps key v now now' clocks (c : cache) :
  isClosed c = false →
  let c' := history (state_of (Set_ key v now c)) (CallSweep <$> clocks) in
  Get key now' c' =
  Returned (answer (timeToLive c) now' (Some (v, now))) c'.
Proof.
  intros Hopen c'.
  assert (Hc' : isClosed c' = false ∧
                hashmap c' !! key = Some (mkEntry key v (now + timeToLive c))).
  { subst c'. rewrite Set_open by done.
    induction clocks as [|clock clocks IH] using rev_ind.
    - simpl. by rewrite lookup_insert_eq.
    - unfold history in *. rewrite fmap_app, foldl_app. simpl.
      by rewrite deleteExpiredEntries_returns. }
  destruct Hc' as [Hcl Hk]. rewrite Get_open, Hk by done. f_equal.
  unfold IsExpired, answer. simpl.
  destruct (Z.ltb_spec (now + timeToLive c) now').
  - by rewrite bool_decide_eq_false_2 by lia.
  - by rewrite bool_decide_eq_true_2 by lia.
Qed.

(** ** The queue over a history *)

Lemma remove_key_snoc key (q : list (entry T)) e :
  (key ∉ Key <$> q) → Key e = key → remove_key key (q ++ [e]) = q.
Proof.
  intros Hq He. induction q as [|e' q IH]; simpl.
  - by rewrite decide_True.
  - simpl in Hq. apply not_elem_of_cons in Hq as [Hne Hq].
    rewrite decide_False by congruence. by rewrite IH.
Qed.

Lemma remove_key_length key (q : list (entry T)) :
  key ∈ Key <$> q → S (length (remove_key key q)) = length q.
Proof.
  intros (l1 & old & l2 & -> & _ & _ & ->)%remove_key_present.
  rewrite !length_app. simpl. lia.
Qed.

(** X12. On a reachable open cache, [Set] of a key that has an entry in
    the queue leaves the queue as long as it was (the old entry goes, the
    new one comes), and [Set] of any other key makes it one longer. *)
Theorem Set_queue_length key v now (c : cache) :
  reachable c →
  isClosed c = false →
  length (queue (state_of (Set_ key v now c))) =
  if decide (key ∈ Key <$> queue c) then length (queue c)
  else S (length (queue c)).
Proof.
  intros [Hnd Hidx]%reachable_queue_indexed Hopen.
  rewrite Set_open by done. unfold state_of.
  rewrite Set_result_queue, length_app. simpl length at 2.
  destruct (decide (key ∈ Key <$> queue c)) as [Hin|Hout].
  - rewrite decide_True.
    + rewrite <-(remove_key_length key (queue c)) by done. lia.
    + apply list_elem_of_fmap in Hin as (e & -> & He).
      rewrite (Hidx e He). by eexists.
  - case_decide; [|lia]. rewrite remove_key_absent by done. lia.
Qed.

(** X13. On a reachable cache, repeating a [Set] with the same key, value
    and clock reading leaves the state the first one made. *)
Theorem Set_twice_same key v now (c : cache) :
  reachable c →
  state_of (Set_ key v now (state_of (Set_ key v now c))) =
  state_of (Set_ key v now c).
Proof.
  intros Hqi%reachable_queue_indexed.
  destruct (Set_state_cases key v now c) as [[Hcl Hc]|[Hopen Hc]].
  - by rewrite Hc, Hc.
  - rewrite Hc. rewrite Set_open by done.
    pose proof (Set_base_fresh key c Hqi) as Hfresh.
    destruct c as [ttl tk dn cl m q]. unfold Set_result. simpl in *.
    rewrite insert_insert_eq, lookup_insert_eq.
    rewrite decide_True by by eexists.
    by rewrite remove_key_snoc.
Qed.

(** X14. In every reachable state the queue is within the index: each
    entry of the queue is the entry the index holds under its key, no key
    occurs twice in the queue, every entry of the index is filed under
    its own key, and the queue is no longer than the index is large. *)
Theorem reachable_queue_within_index (c : cache) :
  reachable c →
  queue_indexed c ∧ index_keyed c ∧
  (length (queue c) ≤ size (hashmap c))%nat.
Proof.
  intros Hr.
  pose proof (reachable_queue_indexed c Hr) as Hqi.
  split; [done|]. split; [by apply reachable_index_keyed|].
  destruct Hqi as [Hnd Hidx].
  rewrite <-length_map_to_list, <-(length_fmap Key (queue c)),
    <-(length_fmap fst (map_to_list (hashmap c))).
  apply submseteq_length, NoDup_submseteq; [done|].
  intros k (e & -> & He)%list_elem_of_fmap.
  apply list_elem_of_fmap. exists (Key e, e). split; [done|].
  by apply elem_of_map_to_list, Hidx.
Qed.

Lemma exec_queue_elem_of (c : cache) op e :
  e ∈ queue (exec c op) →
  e ∈ queue c ∨
  ∃ key v now, op = CallSet key v now ∧
               e = mkEntry key v (now + timeToLive c).
Proof.
  destruct op as [k v now|k now| |clock]; simpl.
  - destruct (Set_state_cases k v now c) as [[_ ->]|[_ ->]]; [by left|].
    intros [?| ->]%Set_result_elem_of; [by left|right]. by exists k, v, now.
  - rewrite Get_state. by left.
  - rewrite Close_state_queue. by left.
  - rewrite deleteExpiredEntries_queue. intros He. left.
    destruct (trim_expired_suffix clock 0 (queue c)) as [l Hl].
    rewrite Hl, elem_of_app. by right.
Qed.

Lemma history_sorted ops (c : cache) :
  StronglySorted Z.le (set_times ops) →
  queue_sorted (queue c) →
  (∀ e s, e ∈ queue c → s ∈ set_times ops →
          Expiration e ≤ s + timeToLive c) →
  queue_sorted (queue (history c ops)).
Proof.
  unfold history. revert c.
  induction ops as [|op ops IH]; intros c Hm Hs Hb; simpl; [done|].
  assert (Htail : StronglySorted Z.le (set_times ops)).
  { destruct op; simpl in Hm; try done.
    by apply StronglySorted_cons in Hm as [_ ?]. }
  apply IH; [done| |].
  - destruct op as [k v now|k now| |clock]; simpl.
    + destruct (Set_state_cases k v now c) as [[_ ->]|[_ ->]]; [done|].
      apply Set_result_sorted; [done|]. intros e He.
      apply (Hb e now); [done|]. simpl. by left.
    + by rewrite Get_state.
    + by rewrite Close_state_queue.
    + by apply deleteExpiredEntries_sorted.
  - intros e s He Hs'. rewrite exec_timeToLive.
    apply exec_queue_elem_of in He
      as [He|(k & v & now & -> & ->)].
    + apply Hb; [done|]. destruct op; simpl; try done. by right.
    + simpl in Hm. apply StronglySorted_cons in Hm as [Hnow _].
      rewrite Forall_forall in Hnow. specialize (Hnow s Hs').
      simpl. lia.
Qed.

(** X15. Whatever the history of [Set], [Get], [Close] and sweeps on a
    fresh cache, if the clock readings of its [Set] calls never go back,
    the queue is in non-decreasing order of expiration at its end. *)
Theorem history_keeps_queue_sorted ttl interval ops :
  StronglySorted Z.le (set_times ops) →
  queue_sorted
    (queue (history (NewInMemoryCache ttl interval : cache) ops)).
Proof.
  intros Hm. apply history_sorted; [done|constructor|].
  by intros e s ?%elem_of_nil.
Qed.

(** ** The life cycle over a history *)

Lemma exec_lifecycle (c : cache) op :
  period (cleaningTicker (exec c op)) = period (cleaningTicker c) ∧
  isClosed (exec c op) = isClosed c || is_close op ∧
  (done c = isClosed c → done (exec c op) = isClosed (exec c op)) ∧
  (stopped (cleaningTicker c) = isClosed c →
   stopped (cleaningTicker (exec c op)) = isClosed (exec c op)).
Proof.
  destruct op as [k v now|k now| |clock]; simpl.
  - destruct (Set_state_cases k v now c) as [[_ ->]|[_ ->]]; simpl;
      by rewrite orb_false_r.
  - rewrite Get_state. by rewrite orb_false_r.
  - destruct (isClosed c) eqn:H.
    + rewrite Close_closed by done. simpl. by rewrite H.
    + by rewrite Close_open.
  - rewrite deleteExpiredEntries_returns. simpl. by rewrite orb_false_r.
Qed.

(** X16. Over any history on a fresh cache the time-to-live and the
    period of the ticker stay as given to [NewInMemoryCache]; the channel
    [done] is closed and the ticker is stopped exactly when the cache is
    closed; and the cache is closed exactly when the history contains a
    [Close]. *)
Theorem history_lifecycle ttl interval ops :
  let c := history (NewInMemoryCache ttl interval : cache) ops in
  timeToLive c = ttl ∧
  period (cleaningTicker c) = interval ∧
  done c = isClosed c ∧
  stopped (cleaningTicker c) = isClosed c ∧
  (isClosed c = true ↔ CallClose ∈ ops).
Proof.
  unfold history. induction ops as [|op ops IH] using rev_ind; simpl.
  - split_and!; try done. split; [done|]. by intros ?%elem_of_nil.
  - rewrite foldl_app. simpl.
    destruct IH as (Httl & Hper & Hdone & Hstop & Hcl).
    destruct (exec_lifecycle
                (foldl exec (NewInMemoryCache ttl interval) ops) op)
      as (Hper' & Hcl' & Hdone' & Hstop').
    split_and!.
    + by rewrite exec_timeToLive.
    + congruence.
    + by apply Hdone'.
    + by apply Hstop'.
    + rewrite Hcl', orb_true_iff, Hcl, elem_of_app, list_elem_of_singleton.
      destruct op; simpl; intuition congruence.
Qed.

Lemma exec_closed (c : cache) op :
  isClosed c = true →
  isClosed (exec c op) = true ∧
  hashmap (exec c op) = hashmap c ∧
  queue (exec c op) `suffix_of` queue c.
Proof.
  intros H. destruct op as [k v now|k now| |clock]; simpl.
  - by rewrite Set_closed.
  - by rewrite Get_state.
  - by rewrite Close_closed.
  - rewrite deleteExpiredEntries_returns. simpl.
    split_and!; [done|done|apply trim_expired_suffix].
Qed.

(** X17. A closed cache takes nothing in.  Through every history after
    it was closed, the cache stays closed, the index is what it was, and
    the queue is a tail of what it was (a late sweep may still shorten
    it). *)
Theorem closed_cache_is_frozen ops (c : cache) :
  isClosed c = true →
  isClosed (history c ops) = true ∧
  hashmap (history c ops) = hashmap c ∧
  queue (history c ops) `suffix_of` queue c.
Proof.
  unfold history. revert c.
  induction ops as [|op ops IH]; intros c H; simpl; [done|].
  destruct (exec_closed c op H) as (Hcl & Hm & Hq).
  destruct (IH (exec c op) Hcl) as (Hcl' & Hm' & Hq').
  split_and!; [done|congruence|by etrans].
Qed.

(** X18. Without a sweep the index and the queue stay in bijection:
    after any history of [Set], [Get] and [Close] on a fresh cache, every
    key of the index has its one entry in the queue and every entry of
    the queue is the entry the index holds under its key. *)
Theorem history_without_sweep_bijection ttl interval ops :
  Forall (λ op, is_sweep op = false) ops →
  bijection (history (NewInMemoryCache ttl interval : cache) ops).
Proof.
  unfold history.
  induction ops as [|op ops IH] using rev_ind; intros Hops; simpl.
  - apply New_bijection.
  - rewrite Forall_app, Forall_singleton in Hops.
    destruct Hops as [Hops Hop]. specialize (IH Hops). rewrite foldl_app. simpl.
    destruct op as [k v now|k now| |clock]; simpl in Hop |- *;
      [| | |discriminate Hop].
    + by apply Set_bijection.
    + by rewrite Get_state.
    + by apply Close_bijection.
Qed.

Lemma record_set_is_Some key ops (acc : option (T * Time)) :
  is_Some (foldl (record_set key) acc ops) ↔
  is_Some acc ∨ ∃ v now, CallSet key v now ∈ ops.
Proof.
  revert acc. induction ops as [|op ops IH]; intros acc; simpl.
  - split; [by left|]. intros [?|(v & now & ?%elem_of_nil)]; done.
  - rewrite IH. setoid_rewrite elem_of_cons.
    destruct op as [k v now|k now| |clock]; simpl;
      [destruct (decide (k = key)) as [->|Hne]|..].
    1: { split; [|by intros; left]. intros _. right. exists v, now. by left. }
    all: split.
    all: try (intros [?|(v' & now' & ?)]; [by left|];
              right; exists v', now'; by right).
    all: intros [?|(v' & now' & [?|?])]; [by left|congruence|];
      right; by exists v', now'.
Qed.

(** X19. After any history without [Close] on a fresh cache, the keys of
    the index are exactly the keys that were ever [Set]: neither the
    passing of time nor a sweep takes one out. *)
Theorem index_holds_every_key_set ttl interval ops key :
  Forall (λ op, is_close op = false) ops →
  is_Some (hashmap (history (NewInMemoryCache ttl interval : cache) ops)
             !! key) ↔
  ∃ v now, CallSet key v now ∈ ops.
Proof.
  intros Hops.
  destruct (history_last_set key ops
              (NewInMemoryCache ttl interval) None) as [_ Hk];
    [done|done|done|].
  rewrite Hk, fmap_is_Some, record_set_is_Some.
  split; [|by right]. intros [[? [=]]|?]; done.
Qed.

End Histories.

(** ** The further properties at work on the cache of strings *)

Lemma example_reachable : reachable example_history.
Proof. apply reachable_history, reachable_new. Defined.

Lemma sweep_keeps_live_entries_witness :
  queue_sorted (queue example_before_sweep) ∧
  clock_never_goes_back example_clock ∧
  let c' :=
    state_of (deleteExpiredEntries example_clock example_before_sweep) in
  let last :=
    example_clock
      (length (queue example_before_sweep) - length (queue c'))%nat in
  queue c' =
  filter (λ e, IsExpired e last = false) (queue example_before_sweep).
Proof.
  assert (Hs : queue_sorted (queue example_before_sweep)).
  { assert (Hq : queue example_before_sweep =
                 [mkEntry "b" "2"%string 3; mkEntry "a" "3"%string 5])
      by reflexivity.
    rewrite Hq. unfold queue_sorted.
    repeat (constructor; [|repeat constructor; unfold expires_no_later;
                           simpl; lia]).
    constructor. }
  assert (Hc : clock_never_goes_back example_clock).
  { intros i j Hij. unfold example_clock. lia. }
  split; [exact Hs|]. split; [exact Hc|].
  exact (sweep_keeps_live_entries example_clock example_before_sweep Hs Hc).
Defined.

Lemma sweep_without_expired_head_witness :
  (∀ e, head (queue example_history) = Some e →
        IsExpired e (example_clock 0%nat) = false) ∧
  deleteExpiredEntries example_clock example_history =
  Returned tt example_history.
Proof.
  assert (H : ∀ e, head (queue example_history) = Some e →
                   IsExpired e (example_clock 0%nat) = false).
  { intros e He. injection He as <-. reflexivity. }
  split; [exact H|].
  exact (sweep_without_expired_head example_clock example_history H).
Defined.

Lemma Get_miss_persists_witness :
  6 ≤ 9 ∧
  Get "a" 6 example_history =
    Returned (""%string, Some "cache miss"%string) example_history ∧
  Get "a" 9 example_history =
    Returned (zero_value, Some "cache miss"%string) example_history.
Proof.
  split; [lia|]. split; [reflexivity|].
  apply (Get_miss_persists "a" 6 9 example_history example_history
           ""%string "cache miss"); [lia|reflexivity].
Defined.

Lemma Set_other_key_witness :
  "a"%string ≠ "z"%string ∧
  value_of (Get "a" 5 (state_of (Set_ "z" "0"%string 5 example_history))) =
  value_of (Get "a" 5 example_history).
Proof.
  assert (Hne : "a"%string ≠ "z"%string) by discriminate.
  split; [exact Hne|]. by apply Set_other_key.
Defined.

Lemma index_never_forgets_witness :
  is_Some (hashmap example_set !! "key"%string) ∧
  is_Some (hashmap (history example_set example_ops) !! "key"%string).
Proof.
  assert (H : is_Some (hashmap example_set !! "key"%string))
    by (eexists; reflexivity).
  split; [exact H|]. by apply index_never_forgets.
Defined.

Lemma Get_returns_last_Set_witness :
  Forall (λ op, is_close op = false) example_ops ∧
  Get "a" 5 (history example_new example_ops) =
  Returned (answer 1 5 (last_set "a" example_ops))
           (history example_new example_ops).
Proof.
  assert (H : Forall (λ op, is_close op = false) example_ops)
    by (repeat constructor).
  split; [exact H|]. by apply Get_returns_last_Set.
Defined.

Lemma Get_after_Set_and_sweeps_witness :
  isClosed example_history = false ∧
  let c' :=
    history (state_of (Set_ "k" "v"%string 7 example_history))
            (CallSweep <$> [example_clock; fun _ => 9]) in
  Get "k" 9 c' =
  Returned (answer (timeToLive example_history) 9 (Some ("v"%string, 7))) c'.
Proof.
  split; [reflexivity|]. by apply Get_after_Set_and_sweeps.
Defined.

Lemma Set_queue_length_witness :
  reachable example_history ∧
  isClosed example_history = false ∧
  length (queue (state_of (Set_ "a" "5"%string 6 example_history))) =
  if decide ("a"%string ∈ Key <$> queue example_history)
  then length (queue example_history)
  else S (length (queue example_history)).
Proof.
  split; [exact example_reachable|]. split; [reflexivity|].
  apply Set_queue_length; [exact example_reachable|reflexivity].
Defined.

Lemma Set_twice_same_witness :
  reachable example_history ∧
  state_of (Set_ "b" "5"%string 6
              (state_of (Set_ "b" "5"%string 6 example_history))) =
  state_of (Set_ "b" "5"%string 6 example_history).
Proof.
  split; [exact example_reachable|].
  apply Set_twice_same, example_reachable.
Defined.

Lemma reachable_queue_within_index_witness :
  reachable example_history ∧
  queue_indexed example_history ∧ index_keyed example_history ∧
  (length (queue example_history) ≤ size (hashmap example_history))%nat.
Proof.
  split; [exact example_reachable|].
  apply reachable_queue_within_index, example_reachable.
Defined.

Lemma history_keeps_queue_sorted_witness :
  StronglySorted Z.le (set_times example_ops) ∧
  queue_sorted (queue (history example_new example_ops)).
Proof.
  assert (H : StronglySorted Z.le (set_times example_ops)).
  { simpl. repeat (constructor; [|repeat constructor; lia]). constructor. }
  split; [exact H|]. by apply history_keeps_queue_sorted.
Defined.

Lemma closed_cache_is_frozen_witness :
  isClosed example_closed = true ∧
  isClosed (history example_closed example_ops) = true ∧
  hashmap (history example_closed example_ops) = hashmap example_closed ∧
  queue (history example_closed example_ops) `suffix_of`
    queue example_closed.
Proof.
  split; [reflexivity|]. by apply closed_cache_is_frozen.
Defined.

Lemma history_without_sweep_bijection_witness :
  Forall (λ op, is_sweep op = false) example_quiet_ops ∧
  bijection (history example_new example_quiet_ops).
Proof.
  assert (H : Forall (λ op, is_sweep op = false) example_quiet_ops)
    by (repeat constructor).
  split; [exact H|]. by apply history_without_sweep_bijection.
Defined.

Lemma index_holds_every_key_set_witness :
  Forall (λ op, is_close op = false) example_ops ∧
  (is_Some (hashmap (history example_new example_ops) !! "b"%string) ↔
   ∃ v now, CallSet "b" v now ∈ example_ops).
Proof.
  assert (H : Forall (λ op, is_close op = false) example_ops)
    by (repeat constructor).
  split; [exact H|]. by apply index_holds_every_key_set.
Defined.
